(** * cargo-audit: the vulnerability matching engine and the [main] driver

    [main] of src/main.rs is embedded as a program in a small
    output/termination monad.  The engine it calls
    ([Lockfile::vulnerabilities], [AdvisoryDatabase], [Advisory],
    [Version], [VersionReq]) lives in the [rustsec] crate, outside
    src/; those definitions are modelled from the spec (§3, §4). *)

From Stdlib Require Import Strings.String Strings.Ascii NArith Sorting.Permutation.
From stdpp Require Import base list gmap strings pretty.

Open Scope string_scope.
Set Warnings "-register-all".

(** ** Comparison functions and their laws *)

Class CmpLaws {A : Type} (f : A -> A -> comparison) : Prop := {
  cmp_eq_sound : forall x y, f x y = Eq -> x = y;
  cmp_antisym : forall x y, f y x = CompOpp (f x y);
  cmp_trans_lt : forall x y z, f x y = Lt -> f y z = Lt -> f x z = Lt
}.

Lemma cmp_refl {A} (f : A -> A -> comparison) `{!CmpLaws f} x : f x x = Eq.
Proof. pose proof (cmp_antisym x x) as H. destruct (f x x); simpl in H; congruence. Qed.

Lemma cmp_gt_lt {A} (f : A -> A -> comparison) `{!CmpLaws f} x y :
  f x y = Gt -> f y x = Lt.
Proof. intros H. rewrite cmp_antisym, H. reflexivity. Qed.

#[global] Instance N_cmp_laws : CmpLaws N.compare.
Proof.
  split.
  - intros x y. apply N.compare_eq_iff.
  - intros x y. apply N.compare_antisym.
  - intros x y z. rewrite !N.compare_lt_iff. lia.
Qed.

#[global] Instance ascii_cmp_laws : CmpLaws Ascii.compare.
Proof.
  split.
  - apply Ascii.compare_eq_iff.
  - intros x y. apply Ascii.compare_antisym.
  - unfold Ascii.compare. intros x y z. rewrite !N.compare_lt_iff. lia.
Qed.

Section Lex.
Context {A : Type} (f : A -> A -> comparison) `{!CmpLaws f}.

(** Lexicographic order on lists, a proper prefix being smaller. *)
Fixpoint list_cmp (l1 l2 : list A) : comparison :=
  match l1, l2 with
  | [], [] => Eq
  | [], _ :: _ => Lt
  | _ :: _, [] => Gt
  | x :: l1', y :: l2' =>
      match f x y with
      | Eq => list_cmp l1' l2'
      | c => c
      end
  end.

#[global] Instance list_cmp_laws : CmpLaws list_cmp.
Proof.
  split.
  - induction x as [|a x IH]; destruct y as [|b y]; simpl; try congruence.
    destruct (f a b) eqn:E; try congruence.
    intros H. apply cmp_eq_sound in E. f_equal; auto.
  - induction x as [|a x IH]; destruct y as [|b y]; simpl; try reflexivity.
    rewrite (cmp_antisym a b). destruct (f a b); simpl; auto.
  - induction x as [|a x IH]; destruct y as [|b y]; destruct z as [|c z];
      simpl; try congruence.
    destruct (f a b) eqn:E1; try congruence;
      destruct (f b c) eqn:E2; try congruence; intros H1 H2.
    + apply cmp_eq_sound in E1, E2. subst a b. rewrite (cmp_refl f c). eauto.
    + apply cmp_eq_sound in E1. subst a. rewrite E2. reflexivity.
    + apply cmp_eq_sound in E2. subst b. rewrite E1. reflexivity.
    + rewrite (cmp_trans_lt a b c E1 E2). reflexivity.
Qed.
End Lex.

Section Prod.
Context {A B : Type} (f : A -> A -> comparison) (g : B -> B -> comparison).
Context `{!CmpLaws f} `{!CmpLaws g}.

(** Lexicographic order on pairs. *)
Definition prod_cmp (p q : A * B) : comparison :=
  match f p.1 q.1 with
  | Eq => g p.2 q.2
  | c => c
  end.

#[global] Instance prod_cmp_laws : CmpLaws prod_cmp.
Proof.
  unfold prod_cmp. split.
  - intros [a b] [c d]; simpl. destruct (f a c) eqn:E; try congruence.
    intros H. apply cmp_eq_sound in E, H. subst. reflexivity.
  - intros [a b] [c d]; simpl. rewrite (cmp_antisym a c).
    destruct (f a c); simpl; auto using cmp_antisym.
  - intros [a b] [c d] [e h]; simpl.
    destruct (f a c) eqn:E1; try congruence;
      destruct (f c e) eqn:E2; try congruence; intros H1 H2.
    + apply cmp_eq_sound in E1, E2. subst a c. rewrite (cmp_refl f e).
      eauto using cmp_trans_lt.
    + apply cmp_eq_sound in E1. subst a. rewrite E2. reflexivity.
    + apply cmp_eq_sound in E2. subst c. rewrite E1. reflexivity.
    + rewrite (cmp_trans_lt a c e E1 E2). reflexivity.
Qed.
End Prod.

Lemma string_compare_list s t :
  String.compare s t = list_cmp Ascii.compare (list_ascii_of_string s) (list_ascii_of_string t).
Proof.
  revert t. induction s as [|a s IH]; destruct t as [|b t]; simpl; try reflexivity.
  destruct (Ascii.compare a b); auto.
Qed.

#[global] Instance string_cmp_laws : CmpLaws String.compare.
Proof.
  split; intros *; rewrite ?string_compare_list.
  - intros H. apply cmp_eq_sound in H.
    rewrite <- (string_of_list_ascii_of_string x), <- (string_of_list_ascii_of_string y), H.
    reflexivity.
  - apply cmp_antisym.
  - apply cmp_trans_lt.
Qed.

(** ** Versions (semver, modelled from the spec §3, §4.1) *)

(** Modelled from the spec: [semver::Identifier], a pre-release or build
    identifier (not in src/). *)
Inductive Identifier :=
| Numeric (n : N)
| AlphaNumeric (s : string).

(** Numeric identifiers compare numerically, alphanumeric ones lexically,
    and a numeric identifier is below an alphanumeric one. *)
Definition identifier_cmp (i j : Identifier) : comparison :=
  match i, j with
  | Numeric a, Numeric b => N.compare a b
  | Numeric _, AlphaNumeric _ => Lt
  | AlphaNumeric _, Numeric _ => Gt
  | AlphaNumeric s, AlphaNumeric t => String.compare s t
  end.

#[global] Instance identifier_cmp_laws : CmpLaws identifier_cmp.
Proof.
  split.
  - intros [a|s] [b|t]; simpl; try congruence; intros H; f_equal; apply (cmp_eq_sound _ _ H).
  - intros [a|s] [b|t]; simpl; try reflexivity; apply cmp_antisym.
  - intros [a|s] [b|t] [c|u]; simpl; try congruence; apply cmp_trans_lt.
Qed.

Record Version := mkVersion {
  major : N;
  minor : N;
  patch : N;
  pre : list Identifier;
  build : list Identifier
}.

(** Pre-release lists: a version without pre-release is above every
    pre-release of the same [major.minor.patch]; two pre-release lists
    compare identifier by identifier. *)
Definition pre_cmp (p q : list Identifier) : comparison :=
  match p, q with
  | [], [] => Eq
  | [], _ :: _ => Gt
  | _ :: _, [] => Lt
  | _, _ => list_cmp identifier_cmp p q
  end.

#[global] Instance pre_cmp_laws : CmpLaws pre_cmp.
Proof.
  split.
  - intros [|a p] [|b q]; unfold pre_cmp; try congruence.
    apply (cmp_eq_sound (f:=list_cmp identifier_cmp)).
  - intros [|a p] [|b q]; unfold pre_cmp; try reflexivity.
    apply (cmp_antisym (f:=list_cmp identifier_cmp) (a :: p) (b :: q)).
  - intros [|a p] [|b q] [|c r]; unfold pre_cmp; try congruence.
    apply (cmp_trans_lt (f:=list_cmp identifier_cmp) (a :: p) (b :: q) (c :: r)).
Qed.

(** Modelled from the spec: the precedence of [semver::Version] (not in
    src/): major, minor, patch, then pre-release; build metadata is
    ignored. *)
Definition version_cmp (v w : Version) : comparison :=
  match N.compare (major v) (major w) with
  | Eq =>
      match N.compare (minor v) (minor w) with
      | Eq =>
          match N.compare (patch v) (patch w) with
          | Eq => pre_cmp (pre v) (pre w)
          | c => c
          end
      | c => c
      end
  | c => c
  end.

Definition version_key (v : Version) : N * (N * (N * list Identifier)) :=
  (major v, (minor v, (patch v, pre v))).

Definition key_cmp := prod_cmp N.compare (prod_cmp N.compare (prod_cmp N.compare pre_cmp)).

Lemma version_cmp_key v w : version_cmp v w = key_cmp (version_key v) (version_key w).
Proof. reflexivity. Qed.

Lemma version_cmp_refl v : version_cmp v v = Eq.
Proof. rewrite version_cmp_key. apply (cmp_refl key_cmp). Qed.

Lemma version_cmp_antisym v w : version_cmp w v = CompOpp (version_cmp v w).
Proof. rewrite !version_cmp_key. apply (cmp_antisym (f:=key_cmp)). Qed.

Lemma version_cmp_trans_lt u v w :
  version_cmp u v = Lt -> version_cmp v w = Lt -> version_cmp u w = Lt.
Proof. rewrite !version_cmp_key. apply (cmp_trans_lt (f:=key_cmp)). Qed.

(** ** Version ranges (spec §3, §4.1) *)

Inductive Op := OpEq | OpLt | OpLe | OpGt | OpGe | OpCaret | OpTilde.

Record Comparator := mkComparator { op : Op; cmp_version : Version }.

(** A [VersionReq] is a conjunction of comparators; a range set (as used by
    [patched_versions] and [unaffected_versions]) is a disjunction of them. *)
Definition VersionReq := list Comparator.

Definition release (maj mi pa : N) : Version := mkVersion maj mi pa [] [].

(** Upper bound of [^v]: the leftmost non-zero component may not change. *)
Definition caret_upper (v : Version) : Version :=
  if decide (major v <> 0)%N then release (major v + 1) 0 0
  else if decide (minor v <> 0)%N then release 0 (minor v + 1) 0
  else release 0 0 (patch v + 1).

(** Upper bound of [~v]: only patch increases. *)
Definition tilde_upper (v : Version) : Version := release (major v) (minor v + 1) 0.

Definition is_lt (c : comparison) : bool := match c with Lt => true | _ => false end.
Definition is_gt (c : comparison) : bool := match c with Gt => true | _ => false end.
Definition is_eq (c : comparison) : bool := match c with Eq => true | _ => false end.

(** Modelled from the spec: [VersionReq::matches] of one comparator term
    (not in src/), §4.1. *)
Definition comparator_matches (c : Comparator) (v : Version) : bool :=
  let w := cmp_version c in
  match op c with
  | OpEq => is_eq (version_cmp v w)
  | OpLt => is_lt (version_cmp v w)
  | OpLe => negb (is_gt (version_cmp v w))
  | OpGt => is_gt (version_cmp v w)
  | OpGe => negb (is_lt (version_cmp v w))
  | OpCaret => negb (is_lt (version_cmp v w)) && is_lt (version_cmp v (caret_upper w))
  | OpTilde => negb (is_lt (version_cmp v w)) && is_lt (version_cmp v (tilde_upper w))
  end.

(** Modelled from the spec (§3, not in src/): all terms of a group must
    hold; an empty group matches nothing. *)
Definition req_matches (r : VersionReq) (v : Version) : bool :=
  match r with
  | [] => false
  | _ => forallb (fun c => comparator_matches c v) r
  end.

(** Modelled from the spec (§3, not in src/): a range set matches if any
    of its groups does; an empty set matches nothing. *)
Definition range_matches (rs : list VersionReq) (v : Version) : bool :=
  existsb (fun r => req_matches r v) rs.

(** ** Advisories (spec §3, §4.2) *)

(** Modelled from the spec: [rustsec::advisory::Advisory] (not in src/). *)
Record Advisory := mkAdvisory {
  advisory_id : string;
  crate_name : string;
  title : string;
  description : string;
  date : option string;
  url : option string;
  patched_versions : list VersionReq;
  unaffected_versions : list VersionReq
}.

(** Modelled from the spec: [Advisory::is_version_vulnerable] (not in
    src/), §4.2. *)
Definition is_version_vulnerable (a : Advisory) (v : Version) : bool :=
  negb (range_matches (patched_versions a) v) && negb (range_matches (unaffected_versions a) v).

Inductive result (A E : Type) := Ok (a : A) | Err (e : E).
Arguments Ok {A E} a.
Arguments Err {A E} e.

Inductive BuildError :=
| EmptyField (field : string)
| DuplicateIdError (id : string).

(** Modelled from the spec: [Advisory] construction from raw fields (not
    in src/), with the ranges already parsed. *)
Definition advisory_new (id crate ttl descr : string) (dt u : option string)
    (patched unaffected : list VersionReq) : result Advisory BuildError :=
  if String.eqb id "" then Err (EmptyField "id")
  else if String.eqb crate "" then Err (EmptyField "crate_name")
  else Ok (mkAdvisory id crate ttl descr dt u patched unaffected).

(** ** The advisory database (spec §3, §4.3) *)

(** Modelled from the spec: [rustsec::AdvisoryDatabase] (not in src/). *)
Record AdvisoryDatabase := mkDatabase {
  advisories : list Advisory;             (** every advisory, in insertion order *)
  crates : gmap string (list Advisory)    (** index by crate name *)
}.

Definition empty_db : AdvisoryDatabase := mkDatabase [] ∅.

Definition find_by_crate (db : AdvisoryDatabase) (n : string) : list Advisory :=
  default [] (crates db !! n).

Definition db_insert (db : AdvisoryDatabase) (a : Advisory) : AdvisoryDatabase :=
  mkDatabase (advisories db ++ [a])%list
    (<[crate_name a := (find_by_crate db (crate_name a) ++ [a])%list]> (crates db)).

Fixpoint from_advisories_go (seen : gset string) (db : AdvisoryDatabase)
    (l : list Advisory) : result AdvisoryDatabase BuildError :=
  match l with
  | [] => Ok db
  | a :: l' =>
      if decide (advisory_id a ∈ seen) then Err (DuplicateIdError (advisory_id a))
      else from_advisories_go ({[advisory_id a]} ∪ seen) (db_insert db a) l'
  end.

(** Modelled from the spec: [AdvisoryDatabase::from_advisories] (not in
    src/), §4.3: a duplicate id is an error. *)
Definition from_advisories (l : list Advisory) : result AdvisoryDatabase BuildError :=
  from_advisories_go ∅ empty_db l.

(** ** Lockfiles and the scan (spec §3, §4.4) *)

Record Package := mkPackage { name : string; version : Version }.

Record Lockfile := mkLockfile { packages : list Package }.

Record Vulnerability := mkVulnerability { vpackage : Package; vadvisory : Advisory }.

(** Modelled from the spec: [Lockfile::vulnerabilities] (not in src/),
    §4.4: packages in lockfile order, then the crate's advisories in
    insertion order. *)
Definition vulnerabilities (lf : Lockfile) (db : AdvisoryDatabase) : list Vulnerability :=
  flat_map (fun p =>
      List.map (mkVulnerability p)
        (List.filter (fun a => is_version_vulnerable a (version p))
           (find_by_crate db (name p))))
    (packages lf).

(** ** Rendering of versions and requirements *)

Definition nl : string := String (ascii_of_nat 10) EmptyString.
Definition dquote : string := String (ascii_of_nat 34) EmptyString.

Definition identifier_to_string (i : Identifier) : string :=
  match i with Numeric n => pretty n | AlphaNumeric s => s end.

Definition version_to_string (v : Version) : string :=
  pretty (major v) +:+ "." +:+ pretty (minor v) +:+ "." +:+ pretty (patch v)
  +:+ (match pre v with [] => "" | p => "-" +:+ String.concat "." (List.map identifier_to_string p) end)
  +:+ (match build v with [] => "" | b => "+" +:+ String.concat "." (List.map identifier_to_string b) end).

Definition op_to_string (o : Op) : string :=
  match o with
  | OpEq => "= " | OpLt => "< " | OpLe => "<= " | OpGt => "> " | OpGe => ">= "
  | OpCaret => "^" | OpTilde => "~"
  end.

Definition req_to_string (r : VersionReq) : string :=
  match r with
  | [] => "*"
  | _ => String.concat ", " (List.map (fun c => op_to_string (op c) +:+ version_to_string (cmp_version c)) r)
  end.

(** ** The shell, JSON values and the driver's effects *)

Inductive Color := GREEN | RED | WHITE.

Inductive json :=
| JNull
| JString (s : string)
| JArray (l : list json)
| JObject (fields : list (string * json)).

Inductive Payload := PText (s : string) | PJson (j : json).

Inductive Event :=
| EvStatus (status message : string) (c : Color) (justified : bool)  (** [shell.say_status] *)
| EvSay (p : Payload) (c : Color)                                     (** [shell.say] *)
| EvLoad (file : string)                                              (** [Lockfile::load] *)
| EvFetch (url : string).                                             (** [AdvisoryDatabase::fetch_from_url] *)

(** How [main] ends: [exit(code)], a panic, or returning normally. *)
Inductive Termination := Exited (code : Z) | Panicked (msg : string) | Returned.

(** Process exit status: a Rust panic in [main] exits with 101, a normal
    return with 0. *)
Definition exit_status (t : Termination) : Z :=
  match t with Exited c => c | Panicked _ => 101 | Returned => 0 end.

(** The driver's monad: an output log, and early termination.  Writes to
    the terminal are taken to succeed (the [.unwrap()] on each of them is
    not modelled). *)
Definition M (A : Type) : Type := list Event -> list Event * (A + Termination).

Definition ret {A} (a : A) : M A := fun s => (s, inl a).
Definition bind {A B} (m : M A) (f : A -> M B) : M B :=
  fun s => match m s with
           | (s', inl a) => f a s'
           | (s', inr t) => (s', inr t)
           end.
Definition emit (e : Event) : M unit := fun s => ((s ++ [e])%list, inl tt).
Definition halt {A} (t : Termination) : M A := fun s => (s, inr t).

Notation "'let!' x := m 'in' k" := (bind m (fun x => k))
  (at level 200, x name, m at level 100, k at level 200).
Notation "'do!' m 'in' k" := (bind m (fun _ => k))
  (at level 200, m at level 100, k at level 200).

Fixpoint mapM_ {A} (f : A -> M unit) (l : list A) : M unit :=
  match l with [] => ret tt | x :: l' => do! f x in mapM_ f l' end.

(** ** [main] (src/main.rs) *)

(** [rustsec::error::Error], which is neither in src/ nor described by the
    spec: src/main.rs only tells [Error::IO] apart from the other
    variants, and the other variants stand for "any other error". *)
Inductive RustSecError :=
| ErrIO | ErrMalformedVersion | ErrParse | ErrRequest | ErrMissingAttribute | ErrInvalidAttribute.

(** The error's [Display] text, used by the [panic!] of [main]. *)
Definition error_to_string (e : RustSecError) : string :=
  match e with
  | ErrIO => "I/O operation failed"
  | ErrMalformedVersion => "malformed version"
  | ErrParse => "couldn't parse data"
  | ErrRequest => "HTTP request failed"
  | ErrMissingAttribute => "expected attribute missing"
  | ErrInvalidAttribute => "attribute is not the expected type/format"
  end.

(** The error's derived [Debug] text, used by [.expect]. *)
Definition error_debug (e : RustSecError) : string :=
  match e with
  | ErrIO => "IO"
  | ErrMalformedVersion => "MalformedVersion"
  | ErrParse => "Parse"
  | ErrRequest => "Request"
  | ErrMissingAttribute => "MissingAttribute"
  | ErrInvalidAttribute => "InvalidAttribute"
  end.

(** Modelled from the spec: [rustsec::ADVISORY_DB_URL] (not in src/). *)
Definition ADVISORY_DB_URL : string :=
  "https://raw.githubusercontent.com/RustSec/advisory-db/master/Advisories.toml".

(** What [main] reads from its environment: the parsed command line and
    the two loaders it calls. *)
Record Env := mkEnv {
  audit_subcommand : bool;                  (** [matches.subcommand_matches("audit")] is [Some] *)
  arg_file : option string;
  arg_url : option string;
  arg_color : option string;
  arg_format : option string;
  load_lockfile : string -> result Lockfile RustSecError;
  fetch_db : string -> result AdvisoryDatabase RustSecError
}.

Inductive OutputFormat := Text | Json.

(** The [match output_format] of [main].  clap's [possible_values] already
    restricts [--format] to "text" and "json" (any other value makes clap
    exit with status 1 before this code runs), so the last arm is only
    reached by values clap has let through. *)
Definition parse_format (s : string) : OutputFormat :=
  if String.eqb s "text" then Text
  else if String.eqb s "json" then Json
  else Text.

Definition is_text (f : OutputFormat) : bool := match f with Text => true | Json => false end.

Definition when_ (b : bool) (m : M unit) : M unit := if b then m else ret tt.

Definition not_found_hint : string :=
  nl +:+ "Run " +:+ dquote +:+ "cargo build" +:+ dquote
  +:+ " to generate lockfile before running audit".

Definition not_found (filename : string) : M unit :=
  do! emit (EvStatus "error:" ("Couldn't find '" +:+ filename +:+ "'!") RED false) in
  emit (EvSay (PText not_found_hint) WHITE).

Definition vulns_found (vuln_count : nat) : M unit :=
  if decide (vuln_count = 1) then emit (EvStatus (nl +:+ "error:") "1 vulnerability found!" RED false)
  else emit (EvStatus (nl +:+ "error:") (pretty (N.of_nat vuln_count) +:+ " vulnerabilities found!") RED false).

Definition attribute (nm value : string) : M unit :=
  emit (EvStatus (nm +:+ ":") value RED false).

Definition display_advisory (package : Package) (advisory : Advisory) : M unit :=
  do! attribute (nl +:+ "ID") (advisory_id advisory) in
  do! attribute "Crate" (name package) in
  do! attribute "Version" (version_to_string (version package)) in
  do! (match date advisory with Some d => attribute "Date" d | None => ret tt end) in
  do! (match url advisory with Some u => attribute "URL" u | None => ret tt end) in
  do! attribute "Title" (title advisory) in
  let fixed_versions := String.concat ", " (List.map req_to_string (patched_versions advisory)) in
  attribute "Solution: upgrade to" fixed_versions.

Definition opt_json (o : option string) : json :=
  match o with Some s => JString s | None => JNull end.

(** The [json!] object built for one vulnerability (fields in source order). *)
Definition vuln_json (vuln : Vulnerability) : json :=
  let advisory := vadvisory vuln in
  JObject [("tool", JString "cargo-audit");
           ("message", JString (title advisory));
           ("url", opt_json (url advisory));
           ("cve", JString (advisory_id advisory));
           ("file", JString "Cargo.lock");
           ("priority", JString "Unknown")].

Definition lockfile_name (e : Env) : string := default "Cargo.lock" (arg_file e).
Definition db_url (e : Env) : string := default ADVISORY_DB_URL (arg_url e).
Definition output_format (e : Env) : OutputFormat := parse_format (default "text" (arg_format e)).

(** The colour choice only configures the shell's rendering and is not
    modelled. *)
Definition main (e : Env) : M unit :=
  if negb (audit_subcommand e)
  then halt (Panicked "cargo-audit is intended to be invoked as a cargo subcommand")
  else
  let filename := lockfile_name e in
  let u := db_url e in
  let fmt := output_format e in
  do! emit (EvLoad filename) in
  let! lockfile :=
    match load_lockfile e filename with
    | Ok lf => ret lf
    | Err ErrIO => do! not_found filename in halt (Exited 1)
    | Err ex => halt (Panicked ("Couldn't load " +:+ filename +:+ ": " +:+ error_to_string ex))
    end in
  do! when_ (is_text fmt) (emit (EvStatus "Fetching" ("advisories `" +:+ u +:+ "`") GREEN true)) in
  do! emit (EvFetch u) in
  let! advisory_db :=
    match fetch_db e u with
    | Ok db => ret db
    | Err ex => halt (Panicked ("Couldn't fetch advisory database: " +:+ error_debug ex))
    end in
  do! when_ (is_text fmt)
        (emit (EvStatus "Scanning"
           (pretty (N.of_nat (length (packages lockfile))) +:+ " crates for vulnerabilities ("
            +:+ pretty (N.of_nat (length (advisories advisory_db))) +:+ " advisories in database)")
           GREEN true)) in
  let vulns := vulnerabilities lockfile advisory_db in
  do! when_ (is_text fmt)
        (if decide (vulns = []) then emit (EvStatus "Success" "No vulnerable packages found" GREEN true)
         else emit (EvStatus "Warning" "Vulnerable crates found!" RED true)) in
  match fmt with
  | Text =>
      do! mapM_ (fun v => display_advisory (vpackage v) (vadvisory v)) vulns in
      if decide (vulns = []) then ret tt
      else do! vulns_found (length vulns) in halt (Exited 1)
  | Json =>
      let json_vulns := JArray (List.map vuln_json vulns) in
      if decide (vulns = []) then emit (EvSay (PJson json_vulns) GREEN)
      else emit (EvSay (PJson json_vulns) RED)
  end.

(** Running [main]: the output log and how the process ends. *)
Definition run_main (e : Env) : list Event * Termination :=
  match main e [] with
  | (s, inl _) => (s, Returned)
  | (s, inr t) => (s, t)
  end.

(** ** The driver's output as plain lists *)

(** The line [attribute] prints. *)
Definition attribute_event (nm value : string) : Event := EvStatus (nm +:+ ":") value RED false.

(** The loop of [display_advisory] building [fixed_versions]: each
    requirement is pushed, followed by ", " while [i < version_count - 1]. *)
Fixpoint push_fixed_versions (i version_count : nat) (rs : list VersionReq) (acc : string) : string :=
  match rs with
  | [] => acc
  | r :: rs' =>
      let acc1 := acc +:+ req_to_string r in
      let acc2 := if decide (i < version_count - 1) then acc1 +:+ ", " else acc1 in
      push_fixed_versions (S i) version_count rs' acc2
  end.

Definition fixed_versions_loop (rs : list VersionReq) : string :=
  push_fixed_versions 0 (length rs) rs "".

(** The lines [display_advisory] prints, in order. *)
Definition display_events (package : Package) (advisory : Advisory) : list Event :=
  [attribute_event (nl +:+ "ID") (advisory_id advisory);
   attribute_event "Crate" (name package);
   attribute_event "Version" (version_to_string (version package))]
  ++ (match date advisory with Some d => [attribute_event "Date" d] | None => [] end)
  ++ (match url advisory with Some u => [attribute_event "URL" u] | None => [] end)
  ++ [attribute_event "Title" (title advisory);
      attribute_event "Solution: upgrade to"
        (String.concat ", " (List.map req_to_string (patched_versions advisory)))].

(** The line [vulns_found] prints. *)
Definition vulns_found_event (vuln_count : nat) : Event :=
  if decide (vuln_count = 1) then EvStatus (nl +:+ "error:") "1 vulnerability found!" RED false
  else EvStatus (nl +:+ "error:") (pretty (N.of_nat vuln_count) +:+ " vulnerabilities found!") RED false.

(** Is this the first line of an advisory's display? *)
Definition is_id_line (ev : Event) : bool :=
  match ev with EvStatus s _ _ _ => String.eqb s (nl +:+ "ID:") | _ => false end.

(** Is this event something printed on the terminal? *)
Definition is_printed (ev : Event) : bool :=
  match ev with EvStatus _ _ _ _ | EvSay _ _ => true | _ => false end.

(** ** Properties of the database *)

Lemma find_by_crate_empty n : find_by_crate empty_db n = [].
Proof. unfold find_by_crate, empty_db. simpl. rewrite lookup_empty. reflexivity. Qed.

Lemma find_by_crate_insert db a n :
  find_by_crate (db_insert db a) n =
  if String.eqb (crate_name a) n then (find_by_crate db n ++ [a])%list else find_by_crate db n.
Proof.
  destruct (String.eqb_spec (crate_name a) n) as [<-|Hne].
  - unfold find_by_crate at 1. simpl. rewrite lookup_insert_eq. reflexivity.
  - unfold find_by_crate at 1. simpl. rewrite lookup_insert_ne by congruence. reflexivity.
Qed.

Definition for_crate (n : string) (a : Advisory) : bool := String.eqb (crate_name a) n.

Lemma from_advisories_go_spec seen db l db' :
  from_advisories_go seen db l = Ok db' ->
  advisories db' = (advisories db ++ l)%list /\
  forall n, find_by_crate db' n = (find_by_crate db n ++ List.filter (for_crate n) l)%list.
Proof.
  revert seen db. induction l as [|a l IH]; intros seen db H; simpl in H.
  - injection H as <-. split; [by rewrite app_nil_r|]. intros n. simpl. by rewrite app_nil_r.
  - destruct (decide (advisory_id a ∈ seen)) as [|Hfresh]; [discriminate|].
    destruct (IH _ _ H) as [Hadv Hfind]. simpl in Hadv. split.
    + rewrite Hadv, <- app_assoc. reflexivity.
    + intros n. rewrite Hfind, find_by_crate_insert. simpl. unfold for_crate at 2.
      destruct (String.eqb (crate_name a) n); [by rewrite <- app_assoc|reflexivity].
Qed.

Lemma from_advisories_spec l db :
  from_advisories l = Ok db ->
  advisories db = l /\ forall n, find_by_crate db n = List.filter (for_crate n) l.
Proof.
  intros H. destruct (from_advisories_go_spec _ _ _ _ H) as [Ha Hf]. split.
  - exact Ha.
  - intros n. rewrite Hf, find_by_crate_empty. reflexivity.
Qed.

Lemma from_advisories_go_ok seen db l :
  NoDup (List.map advisory_id l) ->
  (forall a, In a l -> advisory_id a ∉ seen) ->
  exists db', from_advisories_go seen db l = Ok db'.
Proof.
  revert seen db. induction l as [|a l IH]; intros seen db Hnd Hfresh; simpl.
  - eauto.
  - inversion Hnd as [|? ? Hnotin Hnd']; subst.
    destruct (decide (advisory_id a ∈ seen)) as [Hin|_].
    { exfalso. exact (Hfresh a (or_introl eq_refl) Hin). }
    apply IH; [exact Hnd'|]. intros x Hx Hsx.
    apply elem_of_union in Hsx as [Hsx|Hsx].
    + apply elem_of_singleton in Hsx. apply Hnotin. rewrite <- Hsx. apply list_elem_of_In, in_map, Hx.
    + exact (Hfresh x (or_intror Hx) Hsx).
Qed.

Lemma from_advisories_ok l :
  NoDup (List.map advisory_id l) -> exists db, from_advisories l = Ok db.
Proof. intros H. apply from_advisories_go_ok; [exact H|]. intros a _ Ha. set_solver. Qed.

(** ** Properties of the scan *)

Lemma filter_filter_andb {A} (f g : A -> bool) (l : list A) :
  List.filter g (List.filter f l) = List.filter (fun x => f x && g x) l.
Proof.
  induction l as [|x l IH]; simpl; [reflexivity|].
  destruct (f x); simpl; [destruct (g x); simpl; rewrite IH|]; auto.
Qed.

(** The scan over the spec's words: every package in lockfile order, every
    advisory in insertion order, kept when names are equal and the version
    is vulnerable. *)
Definition vulnerabilities_spec (lf : Lockfile) (advs : list Advisory) : list Vulnerability :=
  flat_map (fun p =>
      List.map (mkVulnerability p)
        (List.filter (fun a => String.eqb (crate_name a) (name p) && is_version_vulnerable a (version p)) advs))
    (packages lf).

Lemma vulnerabilities_refines advs db lf :
  from_advisories advs = Ok db -> vulnerabilities lf db = vulnerabilities_spec lf advs.
Proof.
  intros H. destruct (from_advisories_spec _ _ H) as [_ Hf].
  unfold vulnerabilities, vulnerabilities_spec. apply flat_map_ext. intros p.
  rewrite Hf, filter_filter_andb. reflexivity.
Qed.

Lemma in_vulnerabilities_spec lf advs p a :
  In (mkVulnerability p a) (vulnerabilities_spec lf advs) <->
  In p (packages lf) /\ In a advs /\ crate_name a = name p /\ is_version_vulnerable a (version p) = true.
Proof.
  unfold vulnerabilities_spec. rewrite in_flat_map. split.
  - intros (q & Hq & Hin). apply in_map_iff in Hin as (b & Heq & Hb).
    injection Heq as -> ->. apply filter_In in Hb as [Hb Hc].
    apply andb_prop in Hc as [Hn Hv]. apply String.eqb_eq in Hn. auto.
  - intros (Hp & Ha & Hn & Hv). exists p. split; [exact Hp|].
    apply in_map. apply filter_In. split; [exact Ha|].
    rewrite Hn, String.eqb_refl. exact Hv.
Qed.

Lemma N_compare_refl (n : N) : N.compare n n = Eq.
Proof. apply N.compare_refl. Qed.

Lemma version_cmp_lt_gt v w : version_cmp v w = Lt -> version_cmp w v = Gt.
Proof. intros H. rewrite version_cmp_antisym, H. reflexivity. Qed.

(** ** Sample inputs *)

Definition sample_advisory : Advisory :=
  mkAdvisory "RUSTSEC-0001" "foo" "bad foo" "" None (Some "https://example.org/foo")
    [[mkComparator OpGe (release 1 2 0)]] [].

Definition sample_lockfile : Lockfile :=
  mkLockfile [mkPackage "foo" (release 1 1 0); mkPackage "foo" (release 1 2 0);
              mkPackage "bar" (release 0 1 0)].

Definition sample_db : AdvisoryDatabase :=
  match from_advisories [sample_advisory] with Ok d => d | Err _ => empty_db end.

(** Two advisories for the crate [bar], both affecting [bar 1.0.0]. *)
Definition bar_advisory_1 : Advisory :=
  mkAdvisory "RUSTSEC-0002" "bar" "bad bar" "" (Some "2017-01-01") None
    [[mkComparator OpGe (release 2 0 0)]] [].

Definition bar_advisory_2 : Advisory :=
  mkAdvisory "RUSTSEC-0003" "bar" "worse bar" "" None None
    [[mkComparator OpGe (release 1 5 0)]] [[mkComparator OpLt (release 0 5 0)]].

Definition bar_advisories : list Advisory := [bar_advisory_1; bar_advisory_2; sample_advisory].

(** The same advisories with the two [bar] advisories swapped. *)
Definition bar_advisories_swapped : list Advisory := [bar_advisory_2; bar_advisory_1; sample_advisory].

Definition bar_lockfile : Lockfile :=
  mkLockfile [mkPackage "bar" (release 1 0 0); mkPackage "foo" (release 1 1 0);
              mkPackage "foo" (release 1 3 0)].

Definition bar_db : AdvisoryDatabase :=
  match from_advisories bar_advisories with Ok d => d | Err _ => empty_db end.

(** The advisory ids of a report, in report order. *)
Definition report_ids (vs : list Vulnerability) : list (string * string) :=
  List.map (fun v => (name (vpackage v), advisory_id (vadvisory v))) vs.

(** ** Claims about the engine *)

(** C2: an advisory reports a version exactly when it is neither patched
    nor unaffected; with no patched range, every version outside the
    unaffected range is vulnerable; a patched version never appears in the
    report for that advisory. *)
Theorem is_version_vulnerable_iff (a : Advisory) (v : Version) :
  (is_version_vulnerable a v = true <->
     range_matches (patched_versions a) v = false /\ range_matches (unaffected_versions a) v = false)
  /\ (patched_versions a = [] -> is_version_vulnerable a v = negb (range_matches (unaffected_versions a) v))
  /\ (forall (lf : Lockfile) (db : AdvisoryDatabase) (p : Package),
        version p = v -> range_matches (patched_versions a) v = true ->
        ~ In (mkVulnerability p a) (vulnerabilities lf db)).
Proof.
  unfold is_version_vulnerable. split; [|split].
  - rewrite andb_true_iff, !negb_true_iff. reflexivity.
  - intros ->. reflexivity.
  - intros lf db p <- Hp Hin. unfold vulnerabilities in Hin.
    apply in_flat_map in Hin as (q & _ & Hin).
    apply in_map_iff in Hin as (b & Heq & Hb). injection Heq as -> ->.
    apply filter_In in Hb as [_ Hv]. unfold is_version_vulnerable in Hv.
    rewrite Hp in Hv. discriminate.
Qed.

(** C3: for a database built from [advs], the report lists, in lockfile
    order and then in advisory insertion order, one entry per (package,
    advisory) pair with exactly equal crate name and a vulnerable version;
    those pairs and no others. *)
Theorem vulnerabilities_exact (advs : list Advisory) (db : AdvisoryDatabase) (lf : Lockfile) :
  from_advisories advs = Ok db ->
  vulnerabilities lf db =
    flat_map (fun p =>
        List.map (mkVulnerability p)
          (List.filter (fun a => String.eqb (crate_name a) (name p) && is_version_vulnerable a (version p)) advs))
      (packages lf)
  /\ (forall p a, In (mkVulnerability p a) (vulnerabilities lf db) <->
       In p (packages lf) /\ In a advs /\ crate_name a = name p /\ is_version_vulnerable a (version p) = true).
Proof.
  intros H. rewrite (vulnerabilities_refines advs db lf H). split.
  - reflexivity.
  - intros p a. apply in_vulnerabilities_spec.
Qed.

Lemma vulnerabilities_exact_witness :
  from_advisories bar_advisories = Ok bar_db /\
  vulnerabilities bar_lockfile bar_db =
    [mkVulnerability (mkPackage "bar" (release 1 0 0)) bar_advisory_1;
     mkVulnerability (mkPackage "bar" (release 1 0 0)) bar_advisory_2;
     mkVulnerability (mkPackage "foo" (release 1 1 0)) sample_advisory].
Proof.
  split; [vm_compute; reflexivity|].
  destruct (vulnerabilities_exact bar_advisories bar_db bar_lockfile eq_refl) as [-> _].
  vm_compute. reflexivity.
Defined.

(** C6: for versions [v1 < v2 < v3], the range [> v1, <= v3] matches [v2]
    and [v3] and does not match [v1]. *)
Theorem range_open_closed_bounds (v1 v2 v3 : Version) :
  version_cmp v1 v2 = Lt -> version_cmp v2 v3 = Lt ->
  let r : list VersionReq := [[mkComparator OpGt v1; mkComparator OpLe v3]] in
  range_matches r v2 = true /\ range_matches r v1 = false /\ range_matches r v3 = true.
Proof.
  intros H12 H23 r. pose proof (version_cmp_trans_lt _ _ _ H12 H23) as H13.
  unfold r, range_matches, req_matches, comparator_matches. simpl.
  rewrite (version_cmp_lt_gt _ _ H12), H23, (version_cmp_lt_gt _ _ H13), !version_cmp_refl.
  auto.
Qed.

Lemma range_open_closed_bounds_witness :
  version_cmp (release 1 0 0) (release 1 2 0) = Lt /\ version_cmp (release 1 2 0) (release 1 3 0) = Lt /\
  range_matches [[mkComparator OpGt (release 1 0 0); mkComparator OpLe (release 1 3 0)]] (release 1 2 0) = true.
Proof.
  split; [reflexivity|]. split; [reflexivity|].
  exact (proj1 (range_open_closed_bounds (release 1 0 0) (release 1 2 0) (release 1 3 0) eq_refl eq_refl)).
Defined.

(** C7: a pre-release [M.m.p-pre] is strictly below [M.m.p], does not match
    [>= M.m.p] and matches [>= M.m.p-pre]. *)
Theorem prerelease_bounds (maj mi pa : N) (pr bd : list Identifier) :
  pr <> [] ->
  let v := mkVersion maj mi pa pr bd in
  version_cmp v (release maj mi pa) = Lt
  /\ comparator_matches (mkComparator OpGe (release maj mi pa)) v = false
  /\ comparator_matches (mkComparator OpGe (mkVersion maj mi pa pr [])) v = true.
Proof.
  intros Hpr v.
  assert (Hlt : version_cmp v (release maj mi pa) = Lt).
  { unfold v, version_cmp, release. simpl. rewrite !N_compare_refl.
    destruct pr; [congruence|reflexivity]. }
  unfold comparator_matches. simpl. rewrite Hlt. split; [reflexivity|split; [reflexivity|]].
  unfold v, version_cmp. simpl. rewrite !N_compare_refl, (cmp_refl pre_cmp). reflexivity.
Qed.

Lemma prerelease_bounds_witness :
  [AlphaNumeric "alpha"] <> [] /\
  comparator_matches (mkComparator OpGe (release 1 0 0)) (mkVersion 1 0 0 [AlphaNumeric "alpha"] []) = false.
Proof.
  split; [discriminate|].
  exact (proj1 (proj2 (prerelease_bounds 1 0 0 [AlphaNumeric "alpha"] [] ltac:(discriminate)))).
Defined.

(** C8: permuting a list of advisories with distinct ids does not change
    the set of matches; each database enumerates a crate's advisories in
    its own insertion order. *)
Theorem vulnerabilities_permutation (advs advs' : list Advisory) (lf : Lockfile) :
  NoDup (List.map advisory_id advs) -> Permutation advs advs' ->
  exists db db',
    from_advisories advs = Ok db /\ from_advisories advs' = Ok db'
    /\ (forall m, In m (vulnerabilities lf db) <-> In m (vulnerabilities lf db'))
    /\ (forall n, find_by_crate db n = List.filter (for_crate n) advs
                  /\ find_by_crate db' n = List.filter (for_crate n) advs').
Proof.
  intros Hnd Hperm.
  assert (Hnd' : NoDup (List.map advisory_id advs')).
  { rewrite <- Hperm. exact Hnd. }
  destruct (from_advisories_ok _ Hnd) as [db Hdb].
  destruct (from_advisories_ok _ Hnd') as [db' Hdb'].
  exists db, db'. split; [exact Hdb|]. split; [exact Hdb'|]. split.
  - intros m. rewrite (vulnerabilities_refines _ _ _ Hdb), (vulnerabilities_refines _ _ _ Hdb').
    destruct m as [p a]. rewrite !in_vulnerabilities_spec.
    pose proof (Permutation_in a Hperm). pose proof (Permutation_in a (Permutation_sym Hperm)).
    tauto.
  - intros n. split; [apply (from_advisories_spec _ _ Hdb)|apply (from_advisories_spec _ _ Hdb')].
Qed.

Lemma vulnerabilities_permutation_witness :
  NoDup (List.map advisory_id bar_advisories) /\
  Permutation bar_advisories bar_advisories_swapped /\
  exists db db',
    from_advisories bar_advisories = Ok db /\ from_advisories bar_advisories_swapped = Ok db'
    /\ (forall m, In m (vulnerabilities bar_lockfile db) <-> In m (vulnerabilities bar_lockfile db'))
    /\ report_ids (vulnerabilities bar_lockfile db) =
         [("bar", "RUSTSEC-0002"); ("bar", "RUSTSEC-0003"); ("foo", "RUSTSEC-0001")]
    /\ report_ids (vulnerabilities bar_lockfile db') =
         [("bar", "RUSTSEC-0003"); ("bar", "RUSTSEC-0002"); ("foo", "RUSTSEC-0001")].
Proof.
  assert (Hnd : NoDup (List.map advisory_id bar_advisories)).
  { apply (bool_decide_unpack (NoDup (List.map advisory_id bar_advisories))). vm_compute. exact I. }
  assert (Hperm : Permutation bar_advisories bar_advisories_swapped) by apply perm_swap.
  split; [exact Hnd|]. split; [exact Hperm|].
  destruct (vulnerabilities_permutation bar_advisories bar_advisories_swapped bar_lockfile Hnd Hperm)
    as (db & db' & H1 & H2 & Hset & _).
  exists db, db'. split; [exact H1|]. split; [exact H2|]. split; [exact Hset|].
  vm_compute in H1, H2. injection H1 as <-. injection H2 as <-.
  split; vm_compute; reflexivity.
Defined.

(** ** Properties of [main] *)

(** A computation that always runs to its end, only adding output. *)
Definition no_halt {A} (m : M A) : Prop := forall s, exists s' a, m s = (s', inl a).

Lemma no_halt_ret {A} (a : A) : no_halt (ret a).
Proof. intros s. exists s, a. reflexivity. Qed.

Lemma no_halt_emit e : no_halt (emit e).
Proof. intros s. eexists _, tt. reflexivity. Qed.

Lemma no_halt_bind {A B} (m : M A) (f : A -> M B) :
  no_halt m -> (forall a, no_halt (f a)) -> no_halt (bind m f).
Proof.
  intros Hm Hf s. destruct (Hm s) as (s' & a & Hs). unfold bind. rewrite Hs. apply Hf.
Qed.

Create HintDb nohalt.
#[local] Hint Resolve no_halt_ret no_halt_emit no_halt_bind : nohalt.

Lemma no_halt_display p a : no_halt (display_advisory p a).
Proof.
  unfold display_advisory, attribute.
  repeat (apply no_halt_bind; [|intros []]); auto with nohalt;
    try (destruct (date a)); try (destruct (url a)); auto with nohalt.
Qed.

Lemma no_halt_mapM_ {A} (f : A -> M unit) (l : list A) :
  (forall x, no_halt (f x)) -> no_halt (mapM_ f l).
Proof. intros Hf. induction l as [|x l IH]; simpl; auto with nohalt. Qed.

Lemma run_main_json e lf db :
  audit_subcommand e = true -> output_format e = Json ->
  load_lockfile e (lockfile_name e) = Ok lf -> fetch_db e (db_url e) = Ok db ->
  run_main e =
    ([EvLoad (lockfile_name e); EvFetch (db_url e);
      EvSay (PJson (JArray (List.map vuln_json (vulnerabilities lf db))))
        (if decide (vulnerabilities lf db = []) then GREEN else RED)], Returned).
Proof.
  intros Hsub Hfmt Hload Hfetch. unfold run_main, main. rewrite Hsub, Hfmt. cbn zeta.
  unfold bind, emit at 1. rewrite Hload. unfold ret at 1. simpl. rewrite Hfetch. simpl.
  destruct (decide (vulnerabilities lf db = [])); reflexivity.
Qed.

Lemma run_main_text e lf db :
  audit_subcommand e = true -> output_format e = Text ->
  load_lockfile e (lockfile_name e) = Ok lf -> fetch_db e (db_url e) = Ok db ->
  snd (run_main e) = if decide (vulnerabilities lf db = []) then Returned else Exited 1.
Proof.
  intros Hsub Hfmt Hload Hfetch. unfold run_main, main. rewrite Hsub, Hfmt. simpl negb.
  cbv beta iota zeta.
  unfold bind at 1, emit at 1. rewrite Hload. unfold bind at 1, ret at 1.
  unfold when_, is_text. unfold bind at 1, emit at 1. rewrite Hfetch.
  unfold bind at 1, emit at 1, bind at 1, ret at 1, bind at 1, emit at 1.
  destruct (decide (vulnerabilities lf db = [])) as [Hnil|Hnil].
  - rewrite Hnil. reflexivity.
  - unfold bind at 1, emit at 1, bind at 1.
    change (negb true) with false. cbv beta iota.
    match goal with
    | |- context [mapM_ ?f ?l ?s] =>
        destruct (no_halt_mapM_ f l (fun v => no_halt_display _ _) s) as (s' & [] & ->)
    end.
    unfold vulns_found. destruct (decide (length (vulnerabilities lf db) = 1)); reflexivity.
Qed.

Lemma run_main_load_error e ex :
  audit_subcommand e = true -> load_lockfile e (lockfile_name e) = Err ex ->
  run_main e =
    match ex with
    | ErrIO =>
        ([EvLoad (lockfile_name e);
          EvStatus "error:" ("Couldn't find '" +:+ lockfile_name e +:+ "'!") RED false;
          EvSay (PText not_found_hint) WHITE], Exited 1)
    | _ =>
        ([EvLoad (lockfile_name e)],
         Panicked ("Couldn't load " +:+ lockfile_name e +:+ ": " +:+ error_to_string ex))
    end.
Proof.
  intros Hsub Hload. unfold run_main, main. rewrite Hsub. cbn zeta.
  unfold bind at 1, emit at 1. rewrite Hload. destruct ex; reflexivity.
Qed.

Definition sample_env (file format : option string) : Env :=
  mkEnv true file None None format (fun _ => Ok sample_lockfile) (fun _ => Ok sample_db).

Definition missing_lockfile_env : Env :=
  mkEnv true (Some "Other.lock") None None None (fun _ => Err ErrIO) (fun _ => Ok sample_db).

(** ** Claims about [main] *)

(** C1: with [--format=json], [main] returns normally (exit status 0)
    even when the report is not empty, while the text format exits with 1
    on the same inputs. *)
Theorem json_exit_status_ignores_report :
  vulnerabilities sample_lockfile sample_db <> []
  /\ exit_status (snd (run_main (sample_env None (Some "json")))) = 0%Z
  /\ exit_status (snd (run_main (sample_env None (Some "text")))) = 1%Z.
Proof. vm_compute. split; [discriminate|split; reflexivity]. Qed.

(** C4: the report depends on nothing but the lockfile's packages and the
    database's per-crate lookup (so identical inputs give identical
    reports), and two runs of [main] whose arguments agree and whose
    loaders return the same lockfile and database print the same output
    and end the same way. *)
Theorem scan_deterministic (lf lf' : Lockfile) (db db' : AdvisoryDatabase) (e e' : Env) :
  packages lf = packages lf' ->
  (forall n, find_by_crate db n = find_by_crate db' n) ->
  audit_subcommand e = audit_subcommand e' -> arg_file e = arg_file e' ->
  arg_url e = arg_url e' -> arg_format e = arg_format e' ->
  load_lockfile e (lockfile_name e) = load_lockfile e' (lockfile_name e') ->
  fetch_db e (db_url e) = fetch_db e' (db_url e') ->
  vulnerabilities lf db = vulnerabilities lf' db' /\ run_main e = run_main e'.
Proof.
  intros Hp Hdb Hsub Hfile Hurl Hfmt Hload Hfetch. split.
  - unfold vulnerabilities. rewrite <- Hp. apply flat_map_ext. intros p. rewrite Hdb. reflexivity.
  - assert (Hn : lockfile_name e = lockfile_name e') by (unfold lockfile_name; congruence).
    assert (Hu : db_url e = db_url e') by (unfold db_url; congruence).
    assert (Hf : output_format e = output_format e') by (unfold output_format; congruence).
    unfold run_main, main. cbv zeta. rewrite Hload, Hfetch, Hsub, Hn, Hu, Hf. reflexivity.
Qed.

Lemma scan_deterministic_witness :
  vulnerabilities sample_lockfile sample_db = vulnerabilities sample_lockfile sample_db
  /\ run_main (sample_env None (Some "json"))
     = run_main (mkEnv true None None (Some "never") (Some "json")
                   (fun _ => Ok sample_lockfile) (fun _ => Ok sample_db)).
Proof.
  exact (scan_deterministic sample_lockfile sample_lockfile sample_db sample_db
           (sample_env None (Some "json"))
           (mkEnv true None None (Some "never") (Some "json")
              (fun _ => Ok sample_lockfile) (fun _ => Ok sample_db))
           eq_refl (fun _ => eq_refl) eq_refl eq_refl eq_refl eq_refl eq_refl eq_refl).
Defined.

(** C5: once the lockfile is loaded and the database fetched, [main]
    cannot fail: it neither panics nor stops early, and how it ends is
    decided by the report alone (return, or [exit(1)] in text format when
    the report is not empty). *)
Theorem scan_total_after_construction (e : Env) (lf : Lockfile) (db : AdvisoryDatabase) :
  audit_subcommand e = true ->
  load_lockfile e (lockfile_name e) = Ok lf -> fetch_db e (db_url e) = Ok db ->
  snd (run_main e) =
    if decide (vulnerabilities lf db = []) then Returned
    else match output_format e with Text => Exited 1 | Json => Returned end.
Proof.
  intros Hsub Hload Hfetch. destruct (output_format e) eqn:Hfmt.
  - exact (run_main_text e lf db Hsub Hfmt Hload Hfetch).
  - rewrite (run_main_json e lf db Hsub Hfmt Hload Hfetch). simpl.
    destruct (decide (vulnerabilities lf db = [])); reflexivity.
Qed.

Lemma scan_total_after_construction_witness :
  snd (run_main (sample_env None None)) = Exited 1.
Proof.
  rewrite (scan_total_after_construction (sample_env None None) sample_lockfile sample_db
             eq_refl eq_refl eq_refl).
  vm_compute. reflexivity.
Defined.

(** C9: in json format every emitted object has [tool] "cargo-audit",
    [file] "Cargo.lock" and [priority] "Unknown" whatever [--file] names;
    only [message], [url] and [cve] come from the advisory. *)
Theorem json_output_fields (e : Env) (lf : Lockfile) (db : AdvisoryDatabase) :
  audit_subcommand e = true -> output_format e = Json ->
  load_lockfile e (lockfile_name e) = Ok lf -> fetch_db e (db_url e) = Ok db ->
  exists c js,
    In (EvSay (PJson (JArray js)) c) (fst (run_main e))
    /\ Forall2 (fun j v =>
         j = JObject [("tool", JString "cargo-audit");
                      ("message", JString (title (vadvisory v)));
                      ("url", opt_json (url (vadvisory v)));
                      ("cve", JString (advisory_id (vadvisory v)));
                      ("file", JString "Cargo.lock");
                      ("priority", JString "Unknown")])
         js (vulnerabilities lf db).
Proof.
  intros Hsub Hfmt Hload Hfetch. rewrite (run_main_json e lf db Hsub Hfmt Hload Hfetch).
  eexists _, _. split.
  - simpl. right. right. left. reflexivity.
  - induction (vulnerabilities lf db) as [|v vs IH]; simpl; constructor; [reflexivity|exact IH].
Qed.

Lemma json_output_fields_witness :
  output_format (sample_env (Some "Other.lock") (Some "json")) = Json
  /\ exists c js, In (EvSay (PJson (JArray js)) c) (fst (run_main (sample_env (Some "Other.lock") (Some "json")))).
Proof.
  split; [reflexivity|].
  destruct (json_output_fields (sample_env (Some "Other.lock") (Some "json")) sample_lockfile sample_db
              eq_refl eq_refl eq_refl eq_refl) as (c & js & Hin & _).
  exists c, js. exact Hin.
Defined.

(** C10: when loading the lockfile fails with an I/O error, [main] prints
    "Couldn't find" and the hint to run "cargo build", exits with 1 and
    never fetches the database; any other load error makes it panic. *)
Theorem load_failure_behaviour (e : Env) (ex : RustSecError) :
  audit_subcommand e = true -> load_lockfile e (lockfile_name e) = Err ex ->
  (forall u, ~ In (EvFetch u) (fst (run_main e)))
  /\ (ex = ErrIO ->
        fst (run_main e) =
          [EvLoad (lockfile_name e);
           EvStatus "error:" ("Couldn't find '" +:+ lockfile_name e +:+ "'!") RED false;
           EvSay (PText (nl +:+ "Run " +:+ dquote +:+ "cargo build" +:+ dquote
                         +:+ " to generate lockfile before running audit")) WHITE]
        /\ exit_status (snd (run_main e)) = 1%Z)
  /\ (ex <> ErrIO -> exists msg, snd (run_main e) = Panicked msg).
Proof.
  intros Hsub Hload. rewrite (run_main_load_error e ex Hsub Hload).
  destruct ex; simpl; (split; [intros u; intuition discriminate|]); split;
    intros H; try congruence; eauto.
Qed.

Lemma load_failure_behaviour_witness :
  fst (run_main missing_lockfile_env) =
    [EvLoad "Other.lock";
     EvStatus "error:" "Couldn't find 'Other.lock'!" RED false;
     EvSay (PText not_found_hint) WHITE].
Proof.
  exact (proj1 (proj1 (proj2 (load_failure_behaviour missing_lockfile_env ErrIO eq_refl eq_refl)) eq_refl)).
Defined.

(** ** Further properties of [main] and its helpers *)

Lemma string_app_assoc (x y z : string) : x +:+ (y +:+ z) = (x +:+ y) +:+ z.
Proof.
  induction x as [|c x IH]; [reflexivity|].
  change (String c (x +:+ (y +:+ z)) = String c ((x +:+ y) +:+ z)). by rewrite IH.
Qed.

Lemma string_app_empty_r (x : string) : x +:+ "" = x.
Proof.
  induction x as [|c x IH]; [reflexivity|].
  change (String c (x +:+ "") = String c x). by rewrite IH.
Qed.

Lemma push_fixed_versions_join i version_count rs acc :
  i + length rs = version_count ->
  push_fixed_versions i version_count rs acc = acc +:+ String.concat ", " (List.map req_to_string rs).
Proof.
  revert i acc. induction rs as [|r rs IH]; intros i acc Hlen; simpl.
  - by rewrite string_app_empty_r.
  - simpl in Hlen. destruct rs as [|r' rs'].
    + simpl in *. rewrite decide_False by lia. reflexivity.
    + rewrite decide_True by (simpl in Hlen; lia). rewrite IH by (simpl in *; lia).
      simpl. rewrite <- !string_app_assoc. reflexivity.
Qed.

Lemma display_advisory_run p a s :
  display_advisory p a s = ((s ++ display_events p a)%list, inl tt).
Proof.
  unfold display_advisory, display_events, attribute, attribute_event, bind, emit, ret.
  destruct (date a), (url a); simpl; rewrite <- !app_assoc; reflexivity.
Qed.

Lemma mapM_display_run (vs : list Vulnerability) s :
  mapM_ (fun v => display_advisory (vpackage v) (vadvisory v)) vs s =
  ((s ++ List.concat (List.map (fun v => display_events (vpackage v) (vadvisory v)) vs))%list, inl tt).
Proof.
  revert s. induction vs as [|v vs IH]; intros s.
  - simpl. rewrite app_nil_r. reflexivity.
  - cbn [mapM_ List.map List.concat]. unfold bind.
    rewrite display_advisory_run, IH, app_assoc. reflexivity.
Qed.

Definition scanning_message (lf : Lockfile) (db : AdvisoryDatabase) : string :=
  pretty (N.of_nat (length (packages lf))) +:+ " crates for vulnerabilities ("
  +:+ pretty (N.of_nat (length (advisories db))) +:+ " advisories in database)".

Lemma run_main_text_events e lf db :
  audit_subcommand e = true -> output_format e = Text ->
  load_lockfile e (lockfile_name e) = Ok lf -> fetch_db e (db_url e) = Ok db ->
  let vulns := vulnerabilities lf db in
  run_main e =
    ([EvLoad (lockfile_name e);
      EvStatus "Fetching" ("advisories `" +:+ db_url e +:+ "`") GREEN true;
      EvFetch (db_url e);
      EvStatus "Scanning" (scanning_message lf db) GREEN true;
      if decide (vulns = []) then EvStatus "Success" "No vulnerable packages found" GREEN true
      else EvStatus "Warning" "Vulnerable crates found!" RED true]
     ++ List.concat (List.map (fun v => display_events (vpackage v) (vadvisory v)) vulns)
     ++ (if decide (vulns = []) then [] else [vulns_found_event (length vulns)]),
     if decide (vulns = []) then Returned else Exited 1)%list.
Proof.
  intros Hsub Hfmt Hload Hfetch vulns. unfold run_main, main. rewrite Hsub, Hfmt.
  cbv beta iota zeta.
  unfold bind at 1, emit at 1. rewrite Hload. unfold bind at 1, ret at 1.
  unfold when_, is_text. unfold bind at 1, emit at 1. rewrite Hfetch.
  unfold bind at 1, emit at 1, bind at 1, ret at 1, bind at 1, emit at 1.
  change (negb true) with false. cbv beta iota.
  fold vulns. unfold scanning_message.
  destruct (decide (vulns = [])) as [Hnil|Hnil].
  - rewrite Hnil. reflexivity.
  - unfold bind at 1, emit at 1, bind at 1. rewrite mapM_display_run.
    unfold vulns_found, vulns_found_event, bind, emit, halt.
    destruct (decide (length vulns = 1)); simpl; reflexivity.
Qed.

Lemma run_main_fetch_error e lf ex :
  audit_subcommand e = true ->
  load_lockfile e (lockfile_name e) = Ok lf -> fetch_db e (db_url e) = Err ex ->
  run_main e =
    ([EvLoad (lockfile_name e)]
     ++ (if is_text (output_format e)
         then [EvStatus "Fetching" ("advisories `" +:+ db_url e +:+ "`") GREEN true] else [])
     ++ [EvFetch (db_url e)],
     Panicked ("Couldn't fetch advisory database: " +:+ error_debug ex))%list.
Proof.
  intros Hsub Hload Hfetch. unfold run_main, main. rewrite Hsub. cbv beta iota zeta.
  unfold bind at 1, emit at 1. rewrite Hload. unfold bind at 1, ret at 1.
  unfold when_. destruct (is_text (output_format e));
    unfold bind, emit, ret, halt; rewrite Hfetch; reflexivity.
Qed.

Lemma display_events_no_fetch p a u : ~ In (EvFetch u) (display_events p a).
Proof. unfold display_events. destruct (date a), (url a); simpl; intuition discriminate. Qed.

Lemma display_events_id_lines p a : length (List.filter is_id_line (display_events p a)) = 1.
Proof. unfold display_events. destruct (date a), (url a); reflexivity. Qed.

Lemma filter_concat_length {A B} (f : B -> bool) (g : A -> list B) (l : list A) :
  (forall x, length (List.filter f (g x)) = 1) ->
  length (List.filter f (List.concat (List.map g l))) = length l.
Proof.
  intros H. induction l as [|x l IH]; [reflexivity|].
  cbn [List.map List.concat]. rewrite List.filter_app, List.length_app, H, IH. reflexivity.
Qed.

Definition is_fetch (ev : Event) : bool := match ev with EvFetch _ => true | _ => false end.

Lemma filter_display_no_fetch p a : List.filter is_fetch (display_events p a) = [].
Proof. unfold display_events. destruct (date a), (url a); reflexivity. Qed.

(** The label and the value of a status line. *)
Definition ev_label (ev : Event) : string :=
  match ev with EvStatus l _ _ _ => l | _ => "" end.

Definition ev_value (ev : Event) : string :=
  match ev with EvStatus _ v _ _ => v | _ => "" end.

(** Two attribute lines with different (concrete) labels differ; with
    the same label they show the same value. *)
Ltac attribute_eq :=
  match goal with
  | H : attribute_event _ _ = attribute_event _ _ |- _ =>
      first [ let Hl := fresh "Hl" in
              pose proof (f_equal ev_label H) as Hl; vm_compute in Hl; discriminate Hl
            | let Hv := fresh "Hv" in
              pose proof (f_equal ev_value H) as Hv; cbn in Hv; subst; reflexivity ]
  end.

Ltac attribute_in :=
  let H := fresh "H" in
  split;
  [ intros H; simpl in H;
    repeat match goal with
           | H : _ \/ _ |- _ => destruct H as [H|H]
           | H : False |- _ => destruct H
           end;
    attribute_eq
  | let Heq := fresh "Heq" in
    intros Heq; first [discriminate Heq | injection Heq as <-; simpl; auto 10] ].

Lemma display_events_date p a d : In (attribute_event "Date" d) (display_events p a) <-> date a = Some d.
Proof. unfold display_events. destruct (date a), (url a); attribute_in. Qed.

Lemma display_events_url p a u : In (attribute_event "URL" u) (display_events p a) <-> url a = Some u.
Proof. unfold display_events. destruct (date a), (url a); attribute_in. Qed.

Lemma filter_concat_nil {A B} (f : B -> bool) (g : A -> list B) (l : list A) :
  (forall x, List.filter f (g x) = []) -> List.filter f (List.concat (List.map g l)) = [].
Proof.
  intros H. induction l as [|x l IH]; [reflexivity|].
  cbn [List.map List.concat]. rewrite List.filter_app, H, IH. reflexivity.
Qed.

Definition sample_text_env : Env := sample_env None (Some "text").

Definition no_db_env : Env :=
  mkEnv true None (Some "https://example.org/db.toml") None None
    (fun _ => Ok sample_lockfile) (fun _ => Err ErrRequest).

Definition no_subcommand_env : Env :=
  mkEnv false None None None None (fun _ => Ok sample_lockfile) (fun _ => Ok sample_db).

(** ** Extra properties of [main] *)

(** Text format: the output is the load, the "Fetching" line, the fetch,
    the "Scanning" line with the package and advisory counts, "Success" or
    "Warning", each vulnerability's display in report order, and the count
    line; the process exits with 1 exactly when the report is not empty. *)
Theorem text_report_layout (e : Env) (lf : Lockfile) (db : AdvisoryDatabase) :
  audit_subcommand e = true -> output_format e = Text ->
  load_lockfile e (lockfile_name e) = Ok lf -> fetch_db e (db_url e) = Ok db ->
  let vulns := vulnerabilities lf db in
  run_main e =
    ([EvLoad (lockfile_name e);
      EvStatus "Fetching" ("advisories `" +:+ db_url e +:+ "`") GREEN true;
      EvFetch (db_url e);
      EvStatus "Scanning" (scanning_message lf db) GREEN true;
      if decide (vulns = []) then EvStatus "Success" "No vulnerable packages found" GREEN true
      else EvStatus "Warning" "Vulnerable crates found!" RED true]
     ++ List.concat (List.map (fun v => display_events (vpackage v) (vadvisory v)) vulns)
     ++ (if decide (vulns = []) then [] else [vulns_found_event (length vulns)]),
     if decide (vulns = []) then Returned else Exited 1)%list.
Proof. apply run_main_text_events. Qed.

Lemma text_report_layout_witness :
  snd (run_main sample_text_env) = Exited 1.
Proof.
  rewrite (text_report_layout sample_text_env sample_lockfile sample_db eq_refl eq_refl eq_refl eq_refl).
  vm_compute. reflexivity.
Defined.

(** Text format: exactly one advisory display (its "ID" line) is printed
    per entry of the report. *)
Theorem text_one_id_line_per_vulnerability (e : Env) (lf : Lockfile) (db : AdvisoryDatabase) :
  audit_subcommand e = true -> output_format e = Text ->
  load_lockfile e (lockfile_name e) = Ok lf -> fetch_db e (db_url e) = Ok db ->
  length (List.filter is_id_line (fst (run_main e))) = length (vulnerabilities lf db).
Proof.
  intros Hsub Hfmt Hload Hfetch. rewrite (run_main_text_events e lf db Hsub Hfmt Hload Hfetch).
  cbn [fst]. rewrite !List.filter_app, !List.length_app.
  rewrite (filter_concat_length is_id_line (fun v => display_events (vpackage v) (vadvisory v)))
    by (intros; apply display_events_id_lines).
  destruct (decide (vulnerabilities lf db = [])) as [Hnil|Hnil].
  - rewrite Hnil. reflexivity.
  - unfold vulns_found_event. destruct (decide (length (vulnerabilities lf db) = 1)); simpl; lia.
Qed.

Lemma text_one_id_line_per_vulnerability_witness :
  length (List.filter is_id_line (fst (run_main sample_text_env))) = 1.
Proof.
  exact (text_one_id_line_per_vulnerability sample_text_env sample_lockfile sample_db
           eq_refl eq_refl eq_refl eq_refl).
Defined.

(** Terminal writes are taken to succeed (the [term::Result] errors that
    [display_advisory] propagates with [?] are not modelled).  Under that
    assumption [display_advisory] prints, all in red and unjustified, the
    ID line first and the Solution line last; it prints a Date line exactly
    when the advisory has a date, showing that date, and a URL line exactly
    when it has a URL, showing that URL. *)
Theorem display_advisory_lines (p : Package) (a : Advisory) (s : list Event) :
  exists evs,
    display_advisory p a s = ((s ++ evs)%list, inl tt)
    /\ head evs = Some (attribute_event (nl +:+ "ID") (advisory_id a))
    /\ last evs = Some (attribute_event "Solution: upgrade to"
                          (String.concat ", " (List.map req_to_string (patched_versions a))))
    /\ (forall d, In (attribute_event "Date" d) evs <-> date a = Some d)
    /\ (forall u, In (attribute_event "URL" u) evs <-> url a = Some u)
    /\ Forall (fun ev => exists l v, ev = EvStatus l v RED false) evs.
Proof.
  exists (display_events p a). split; [apply display_advisory_run|].
  split; [unfold display_events; destruct (date a), (url a); reflexivity|].
  split; [unfold display_events; destruct (date a), (url a); reflexivity|].
  split; [apply display_events_date|]. split; [apply display_events_url|].
  unfold display_events, attribute_event.
  destruct (date a), (url a); simpl; repeat constructor; eauto.
Qed.

(** The "Solution: upgrade to" value built by the loop of
    [display_advisory] is the patched requirements joined by ", ": no
    trailing separator, and the empty string when there are none. *)
Theorem fixed_versions_loop_join (rs : list VersionReq) :
  fixed_versions_loop rs = String.concat ", " (List.map req_to_string rs).
Proof. unfold fixed_versions_loop. rewrite push_fixed_versions_join by lia. reflexivity. Qed.

(** Json format: the only thing printed is the JSON array, green when the
    report is empty and red otherwise; no status line is printed. *)
Theorem json_prints_only_array (e : Env) (lf : Lockfile) (db : AdvisoryDatabase) :
  audit_subcommand e = true -> output_format e = Json ->
  load_lockfile e (lockfile_name e) = Ok lf -> fetch_db e (db_url e) = Ok db ->
  List.filter is_printed (fst (run_main e)) =
    [EvSay (PJson (JArray (List.map vuln_json (vulnerabilities lf db))))
       (if decide (vulnerabilities lf db = []) then GREEN else RED)].
Proof.
  intros Hsub Hfmt Hload Hfetch. rewrite (run_main_json e lf db Hsub Hfmt Hload Hfetch).
  reflexivity.
Qed.

Lemma json_prints_only_array_witness :
  length (List.filter is_printed (fst (run_main (sample_env None (Some "json"))))) = 1.
Proof.
  rewrite (json_prints_only_array (sample_env None (Some "json")) sample_lockfile sample_db
             eq_refl eq_refl eq_refl eq_refl).
  reflexivity.
Defined.

(** The exit status of a run with the [audit] subcommand: 1 when the
    lockfile is missing (I/O error) or when the text format finds
    vulnerabilities; 101 (a panic) for any other load error or a failed
    fetch; 0 otherwise, in particular for every json run that loads and
    fetches. *)
Theorem exit_status_cases (e : Env) :
  audit_subcommand e = true ->
  exit_status (snd (run_main e)) =
    match load_lockfile e (lockfile_name e) with
    | Err ErrIO => 1
    | Err _ => 101
    | Ok lf =>
        match fetch_db e (db_url e) with
        | Err _ => 101
        | Ok db =>
            if decide (vulnerabilities lf db = []) then 0
            else match output_format e with Text => 1 | Json => 0 end
        end
    end%Z.
Proof.
  intros Hsub. destruct (load_lockfile e (lockfile_name e)) as [lf|ex] eqn:Hload.
  - destruct (fetch_db e (db_url e)) as [db|ex] eqn:Hfetch.
    + destruct (output_format e) eqn:Hfmt.
      * rewrite (run_main_text e lf db Hsub Hfmt Hload Hfetch).
        destruct (decide (vulnerabilities lf db = [])); reflexivity.
      * rewrite (run_main_json e lf db Hsub Hfmt Hload Hfetch). simpl.
        destruct (decide (vulnerabilities lf db = [])); reflexivity.
    + rewrite (run_main_fetch_error e lf ex Hsub Hload Hfetch). reflexivity.
  - rewrite (run_main_load_error e ex Hsub Hload). destruct ex; reflexivity.
Qed.

Lemma exit_status_cases_witness :
  exit_status (snd (run_main no_db_env)) = 101%Z.
Proof. exact (exit_status_cases no_db_env eq_refl). Defined.

(** Without the [audit] subcommand, [main] panics before printing,
    loading or fetching anything. *)
Theorem no_subcommand_panics (e : Env) :
  audit_subcommand e = false ->
  fst (run_main e) = [] /\ exit_status (snd (run_main e)) = 101%Z.
Proof. intros Hsub. unfold run_main, main. rewrite Hsub. split; reflexivity. Qed.

Lemma no_subcommand_panics_witness :
  fst (run_main no_subcommand_env) = [].
Proof. exact (proj1 (no_subcommand_panics no_subcommand_env eq_refl)). Defined.

(** When fetching the advisory database fails, [main] panics right after
    the fetch: no report, status or JSON output follows, only the
    "Fetching" line in text format was printed. *)
Theorem fetch_failure_panics (e : Env) (lf : Lockfile) (ex : RustSecError) :
  audit_subcommand e = true ->
  load_lockfile e (lockfile_name e) = Ok lf -> fetch_db e (db_url e) = Err ex ->
  List.filter is_printed (fst (run_main e)) =
    (if is_text (output_format e)
     then [EvStatus "Fetching" ("advisories `" +:+ db_url e +:+ "`") GREEN true] else [])
  /\ last (fst (run_main e)) = Some (EvFetch (db_url e))
  /\ exit_status (snd (run_main e)) = 101%Z.
Proof.
  intros Hsub Hload Hfetch. rewrite (run_main_fetch_error e lf ex Hsub Hload Hfetch).
  destruct (is_text (output_format e)); repeat split.
Qed.

Lemma fetch_failure_panics_witness :
  exit_status (snd (run_main no_db_env)) = 101%Z.
Proof. exact (proj2 (proj2 (fetch_failure_panics no_db_env sample_lockfile ErrRequest eq_refl eq_refl eq_refl))). Defined.

(** With the [audit] subcommand, the first thing [main] does is load the
    lockfile named by [--file] (default "Cargo.lock"), and the only
    database it ever fetches is the one at [--url] (default
    [ADVISORY_DB_URL]), at most once. *)
Theorem load_first_fetch_url (e : Env) :
  audit_subcommand e = true ->
  exists rest,
    fst (run_main e) = EvLoad (default "Cargo.lock" (arg_file e)) :: rest
    /\ (forall u, In (EvFetch u) rest -> u = default ADVISORY_DB_URL (arg_url e))
    /\ length (List.filter is_fetch rest) <= 1.
Proof.
  intros Hsub.
  change (default "Cargo.lock" (arg_file e)) with (lockfile_name e).
  change (default ADVISORY_DB_URL (arg_url e)) with (db_url e).
  destruct (load_lockfile e (lockfile_name e)) as [lf|ex] eqn:Hload.
  - destruct (fetch_db e (db_url e)) as [db|ex] eqn:Hfetch.
    + destruct (output_format e) eqn:Hfmt.
      * rewrite (run_main_text_events e lf db Hsub Hfmt Hload Hfetch).
        eexists. split; [reflexivity|]. split.
        -- intros u Hu. destruct Hu as [Hu|[Hu|[Hu|[Hu|Hu]]]]; try discriminate.
           ++ congruence.
           ++ destruct (decide _); discriminate.
           ++ apply in_app_or in Hu as [Hu|Hu].
              ** apply in_concat in Hu as (l & Hl & Hu). apply in_map_iff in Hl as (v & <- & _).
                 exfalso. exact (display_events_no_fetch _ _ _ Hu).
              ** destruct (decide _); [destruct Hu|].
                 destruct Hu as [Hu|[]]. unfold vulns_found_event in Hu.
                 destruct (decide _); discriminate.
        -- cbn [List.app]. cbn [List.filter is_fetch].
           rewrite List.filter_app,
             (filter_concat_nil _ _ _ (fun v => filter_display_no_fetch (vpackage v) (vadvisory v))).
           destruct (decide (vulnerabilities lf db = [])); [simpl; lia|].
           unfold vulns_found_event. destruct (decide _); simpl; lia.
      * rewrite (run_main_json e lf db Hsub Hfmt Hload Hfetch).
        eexists. split; [reflexivity|]. split; [|simpl; lia].
        intros u Hu. simpl in Hu. intuition congruence.
    + rewrite (run_main_fetch_error e lf ex Hsub Hload Hfetch).
      eexists. split; [reflexivity|]. destruct (is_text (output_format e)); simpl;
        (split; [intros u Hu; intuition congruence|lia]).
  - rewrite (run_main_load_error e ex Hsub Hload).
    destruct ex; eexists; (split; [reflexivity|]); simpl; (split; [intros u Hu; intuition congruence|lia]).
Qed.

Lemma load_first_fetch_url_witness :
  exists rest, fst (run_main no_db_env) = EvLoad "Cargo.lock" :: rest.
Proof.
  destruct (load_first_fetch_url no_db_env eq_refl) as (rest & H & _).
  exists rest. exact H.
Defined.
